(** * Topological stitching: the drift solver, the mass spectrum and its matches

    A shallow embedding of the numeric core of three scripts,
    [mass_spectrum.py], [find_the_neutrino.py] and [quantized_spectrum.py]:
    the stability equation and its seed, the call into the root finder, the
    mass proxy, the sweep that builds the ratio curve, the nearest-match
    search and the band spacings.

    Numbers.  A NumPy double is modelled by [npfloat]: an exact real, one of
    the two infinities, or NaN.  The special values follow IEEE 754 (an
    invalid operation gives NaN, a division of a non-zero value by zero gives
    an infinity, every comparison with NaN is false).  Rounding, overflow and
    the sign of zero are outside the model: finite values are exact reals.

    The root finder.  [scipy.optimize.fsolve] is library code; the scripts
    are modelled over an arbitrary [fsolve], a function of the residual and
    of the seed. *)

From Stdlib Require Import Reals Lra Lia ZArith List String Sorted Bool.
Import ListNotations.

Open Scope R_scope.

(** ** Exceptions and results *)

Inductive exn : Type :=
| ZeroDivisionError   (* float division by zero, on Python floats *)
| ValueError          (* argmin of an empty sequence *)
| IndexError.         (* index out of range *)

Inductive result (A : Type) : Type :=
| Ok (a : A)
| Raise (e : exn).

Arguments Ok {A} a.
Arguments Raise {A} e.

Definition bind {A B : Type} (r : result A) (k : A -> result B) : result B :=
  match r with
  | Ok a => k a
  | Raise e => Raise e
  end.

Notation "x <- r ;; k" := (bind r (fun x => k))
  (at level 61, r at next level, right associativity).

(** [xs[i]] for [i >= 0] *)
Definition getitem {A : Type} (xs : list A) (i : nat) : result A :=
  match nth_error xs i with
  | Some a => Ok a
  | None => Raise IndexError
  end.

(** What the process has printed so far. *)
Definition stdout : Type := list string.

(** The first entry of a curve stored at index [N]. *)
Fixpoint lookup {A : Type} (N : Z) (curve : list (Z * A)) : option A :=
  match curve with
  | [] => None
  | (k, v) :: rest => if Z.eqb k N then Some v else lookup N rest
  end.

(** ** NumPy doubles and integer arrays *)

Module Np.

Inductive npfloat : Type :=
| Real (x : R)
| PInf
| NInf
| NaN.

Definition Rltb (x y : R) : bool := if Rlt_dec x y then true else false.
Definition Rleb (x y : R) : bool := if Rle_dec x y then true else false.

Definition is_nan (a : npfloat) : bool :=
  match a with NaN => true | _ => false end.

Definition fneg (a : npfloat) : npfloat :=
  match a with
  | Real x => Real (- x)
  | PInf => NInf
  | NInf => PInf
  | NaN => NaN
  end.

Definition fadd (a b : npfloat) : npfloat :=
  match a, b with
  | NaN, _ | _, NaN => NaN
  | Real x, Real y => Real (x + y)
  | PInf, NInf | NInf, PInf => NaN
  | PInf, _ | _, PInf => PInf
  | NInf, _ | _, NInf => NInf
  end.

Definition fsub (a b : npfloat) : npfloat := fadd a (fneg b).

(** The infinity with the sign of [x], NaN for [x = 0]. *)
Definition signed_inf (x : R) : npfloat :=
  if Rltb 0 x then PInf else if Rltb x 0 then NInf else NaN.

Definition fmul (a b : npfloat) : npfloat :=
  match a, b with
  | NaN, _ | _, NaN => NaN
  | Real x, Real y => Real (x * y)
  | Real x, PInf | PInf, Real x => signed_inf x
  | Real x, NInf | NInf, Real x => signed_inf (- x)
  | PInf, PInf | NInf, NInf => PInf
  | PInf, NInf | NInf, PInf => NInf
  end.

(** [m**2] is computed as [m * m]. *)
Definition fpow2 (a : npfloat) : npfloat := fmul a a.

Definition fdiv (a b : npfloat) : npfloat :=
  match a, b with
  | NaN, _ | _, NaN => NaN
  | Real x, Real y =>
      if Rltb y 0 || Rltb 0 y then Real (x / y) else signed_inf x
  | Real _, PInf | Real _, NInf => Real 0
  | PInf, Real y => if Rltb y 0 then NInf else PInf
  | NInf, Real y => if Rltb y 0 then PInf else NInf
  | PInf, PInf | PInf, NInf | NInf, PInf | NInf, NInf => NaN
  end.

(** [np.sqrt]: NaN below zero (with a warning, no exception). *)
Definition fsqrt (a : npfloat) : npfloat :=
  match a with
  | Real x => if Rleb 0 x then Real (sqrt x) else NaN
  | PInf => PInf
  | NInf | NaN => NaN
  end.

(** [np.arccos]: NaN outside [[-1, 1]]. *)
Definition farccos (a : npfloat) : npfloat :=
  match a with
  | Real x => if Rleb (-1) x && Rleb x 1 then Real (acos x) else NaN
  | PInf | NInf | NaN => NaN
  end.

Definition fabs (a : npfloat) : npfloat :=
  match a with
  | Real x => Real (Rabs x)
  | PInf | NInf => PInf
  | NaN => NaN
  end.

(** [a < b]; false as soon as one side is NaN. *)
Definition flt (a b : npfloat) : bool :=
  match a, b with
  | NaN, _ | _, NaN => false
  | Real x, Real y => Rltb x y
  | NInf, NInf | PInf, _ | _, NInf => false
  | NInf, _ | _, PInf => true
  end.

Definition fgt (a b : npfloat) : bool := flt b a.

(** [np.arange(start, stop)] on integers: [start], ..., [stop - 1]. *)
Definition arange (start stop : Z) : list Z :=
  map (fun i => (start + Z.of_nat i)%Z) (seq 0 (Z.to_nat (stop - start))).

(** [np.argmin] scans from the left and keeps the first smallest entry; an
    entry replaces the current best when it is not [>=] the best, so that a
    NaN is taken and then kept to the end. *)
Fixpoint argmin_from (best_i : nat) (best : npfloat) (i : nat)
    (xs : list npfloat) : nat :=
  match xs with
  | [] => best_i
  | x :: xs' =>
      if is_nan best then best_i
      else if is_nan x || flt x best
           then argmin_from i x (S i) xs'
           else argmin_from best_i best (S i) xs'
  end.

Definition argmin (xs : list npfloat) : result nat :=
  match xs with
  | [] => Raise ValueError
  | x :: xs' => Ok (argmin_from 0 x 1 xs')
  end.

End Np.
Import Np.

(** ** Harmonic indices

    An index reaches the solver either as a Python [int] (a literal such as
    the anchor [3]) or as a NumPy [int64] (an element of [np.arange]).  The
    two differ in one place: [1.0 / (np.pi * N)] is a Python float division
    for the first and a NumPy one for the second. *)

Inductive index : Type :=
| py_int (n : Z)
| np_int64 (n : Z).

Definition index_val (N : index) : Z :=
  match N with py_int n | np_int64 n => n end.

(** [np.pi * N] *)
Definition pi_times (N : index) : R := PI * IZR (index_val N).

(** [guess = 1.0 / (np.pi * N)] *)
Definition guess (N : index) : result npfloat :=
  match N with
  | py_int n =>
      if Z.eqb n 0 then Raise ZeroDivisionError
      else Ok (Real (1 / pi_times N))
  | np_int64 n => Ok (fdiv (Real 1) (Real (pi_times N)))
  end.

(** [np.sqrt(1 - m**2) - m * (np.pi * N - np.arccos(-m))] *)
Definition stability (N : index) (m : npfloat) : npfloat :=
  fsub (fsqrt (fsub (Real 1) (fpow2 m)))
       (fmul m (fsub (Real (pi_times N)) (farccos (fneg m)))).

(** [N * np.sqrt(1 - m**2)] *)
Definition proxy_of (N : index) (m : npfloat) : npfloat :=
  fmul (Real (IZR (index_val N))) (fsqrt (fsub (Real 1) (fpow2 m))).

(** ** mass_spectrum.py

    Steps 1 to 6 of [analyze_mass_spectrum].  The report lines of steps 1
    and 6 and the plot of step 7 are presentation and are not modelled. *)

Module MassSpectrum.

(** Step 1: the Standard Model targets (MeV/c^2). *)
Definition M_e : R := 0.510998.
Definition M_mu : R := 105.658.
Definition M_tau : R := 1776.86.
Definition Target_Ratio_Mu : R := M_mu / M_e.
Definition Target_Ratio_Tau : R := M_tau / M_e.

(** Steps 4 and 5 as written: the anchor and the sweep range. *)
Definition N_e : index := py_int 3.
Definition n_values : list Z := arange 2 12000.

Section Solver.

Variable fsolve : (npfloat -> npfloat) -> npfloat -> npfloat.

(** Step 2: [func = lambda m: ...] and [fsolve(func, guess)[0]]. *)
Definition func (N : index) : npfloat -> npfloat :=
  fun m => stability N m.

Definition solve_drift (N : index) : result npfloat :=
  x0 <- guess N ;;
  Ok (fsolve (func N) x0).

(** Step 3. *)
Definition get_mass_proxy (N : index) : result npfloat :=
  m <- solve_drift N ;;
  Ok (proxy_of N m).

(** Step 5, the loop: [mass_ratios.append(m_proxy / mass_proxy_e)]. *)
Fixpoint sweep (mass_proxy_e : npfloat) (ns : list Z)
    (mass_ratios : list npfloat) : result (list npfloat) :=
  match ns with
  | [] => Ok mass_ratios
  | n :: rest =>
      m_proxy <- get_mass_proxy (np_int64 n) ;;
      sweep mass_proxy_e rest (mass_ratios ++ [fdiv m_proxy mass_proxy_e])
  end.

(** Steps 4 and 5 with the anchor and the range of the sweep as arguments:
    the anchor's proxy first, then [np.arange(start, stop)], the progress
    line and the loop.  The result is the pair of parallel arrays
    [(n_values, mass_ratios)]. *)
Definition generate (anchor : index) (start stop : Z) (out : stdout)
    : result (list Z * list npfloat) * stdout :=
  match get_mass_proxy anchor with
  | Raise e => (Raise e, out)
  | Ok mass_proxy_e =>
      let ns := arange start stop in
      let out1 := (out ++ ["Generating Mass Spectrum..."%string])%list in
      match sweep mass_proxy_e ns [] with
      | Raise e => (Raise e, out1)
      | Ok mass_ratios => (Ok (ns, mass_ratios), out1)
      end
  end.

End Solver.

(** The curve as a sequence of entries [(N, ratio)]. *)
Definition curve_of (arrays : list Z * list npfloat) : list (Z * npfloat) :=
  combine (fst arrays) (snd arrays).

(** Step 6: [idx = np.argmin(np.abs(mass_ratios - target))], then
    [n_values[idx]] and [mass_ratios[idx]]. *)
Definition find_match (ns : list Z) (mass_ratios : list npfloat)
    (target : npfloat) : result (Z * npfloat) :=
  idx <- argmin (map (fun r => fabs (fsub r target)) mass_ratios) ;;
  N <- getitem ns idx ;;
  ratio <- getitem mass_ratios idx ;;
  Ok (N, ratio).

(** Step 6, the report: [abs(1 - ratio/Target)*100], the error printed in
    percent beside each prediction. *)
Definition error_percent (ratio target : npfloat) : npfloat :=
  fmul (fabs (fsub (Real 1) (fdiv ratio target))) (Real 100).

End MassSpectrum.

(** ** find_the_neutrino.py

    The solver with the guarded residual; the script calls it at the
    Python integers [3], [2] and [1]. *)

Module FindTheNeutrino.

Definition N_ELECTRON : index := py_int 3.

Section Solver.

Variable fsolve : (npfloat -> npfloat) -> npfloat -> npfloat.

Definition equation (N : index) (m : npfloat) : npfloat :=
  if fgt (fabs m) (Real 1) then Real 100
  else stability N m.

Definition solve_for_mass_proxy (N : index) : result npfloat :=
  x0 <- guess N ;;
  let m := fsolve (equation N) x0 in
  Ok (proxy_of N m).

End Solver.

(** The body of the script: the anchor, then the candidates [N = 2] and
    [N = 1], each turned into a ratio to the anchor and a mass in MeV. *)
Definition MASS_ELECTRON_MEV : R := 0.51099895000.

Record predictions : Type := {
  mass_proxy_e : npfloat;
  mass_proxy_2 : npfloat;
  ratio_2 : npfloat;
  predicted_mass_2_mev : npfloat;
  mass_proxy_1 : npfloat;
  ratio_1 : npfloat;
  predicted_mass_1_mev : npfloat
}.

Section Script.

Variable fsolve : (npfloat -> npfloat) -> npfloat -> npfloat.

Definition script : result predictions :=
  e <- solve_for_mass_proxy fsolve N_ELECTRON ;;
  p2 <- solve_for_mass_proxy fsolve (py_int 2) ;;
  let r2 := fdiv p2 e in
  let m2 := fmul r2 (Real MASS_ELECTRON_MEV) in
  p1 <- solve_for_mass_proxy fsolve (py_int 1) ;;
  let r1 := fdiv p1 e in
  let m1 := fmul r1 (Real MASS_ELECTRON_MEV) in
  Ok {| mass_proxy_e := e;
        mass_proxy_2 := p2; ratio_2 := r2; predicted_mass_2_mev := m2;
        mass_proxy_1 := p1; ratio_1 := r1; predicted_mass_1_mev := m1 |}.

End Script.

End FindTheNeutrino.

(** ** quantized_spectrum.py

    Step 1 of [plot_drift_spectrum]: the roots and their spacings. *)

Module QuantizedSpectrum.

(** [range(n)] *)
Definition py_range (n : Z) : list nat := seq 0 (Z.to_nat n).

Definition equation (m : npfloat) (N : index) : npfloat := stability N m.

Section Solver.

Variable fsolve : (npfloat -> npfloat) -> npfloat -> npfloat.

(** The first loop: one root per index, appended to [m_values]. *)
Fixpoint solve_roots (N_values : list Z) (m_values : list npfloat)
    : result (list npfloat) :=
  match N_values with
  | [] => Ok m_values
  | N :: rest =>
      x0 <- guess (np_int64 N) ;;
      let root := fsolve (fun m => equation m (np_int64 N)) x0 in
      solve_roots rest (m_values ++ [root])
  end.

(** The second loop: [spacings.append(m_values[i] - m_values[i+1])]. *)
Fixpoint spacing_loop (m_values : list npfloat) (idxs : list nat)
    (spacings : list npfloat) : result (list npfloat) :=
  match idxs with
  | [] => Ok spacings
  | i :: rest =>
      a <- getitem m_values i ;;
      b <- getitem m_values (i + 1) ;;
      spacing_loop m_values rest (spacings ++ [fsub a b])
  end.

(** Step 1 over [np.arange(start, stop)]; the script has [(1, 21)]. *)
Definition drift_spectrum (start stop : Z)
    : result (list Z * list npfloat * list npfloat) :=
  let N_values := arange start stop in
  m_values <- solve_roots N_values [] ;;
  spacings <-
    spacing_loop m_values
      (py_range (Z.of_nat (List.length m_values) - 1)%Z) [] ;;
  Ok (N_values, m_values, spacings).

End Solver.

(** Plot A draws [m_values] against [N_values], plot B draws [spacings]
    against [N_values[:-1]]. *)
Definition root_curve (N_values : list Z) (m_values : list npfloat)
    : list (Z * npfloat) :=
  combine N_values m_values.

Definition spacing_curve (N_values : list Z) (spacings : list npfloat)
    : list (Z * npfloat) :=
  combine (removelast N_values) spacings.

End QuantizedSpectrum.

(** ** Python floats

    A Python [float] is the same double as a NumPy one; what differs is the
    division, which raises on a zero divisor, and that [x == 0] is an
    ordinary comparison. *)



(** [a <= b]; false as soon as one side is NaN. *)
Definition fle (a b : npfloat) : bool :=
  match a, b with
  | NaN, _ | _, NaN => false
  | Real x, Real y => Rleb x y
  | NInf, _ | _, PInf => true
  | PInf, _ | _, NInf => false
  end.


(** [np.isfinite] *)
Definition isfinite (a : npfloat) : bool :=
  match a with Real _ => true | _ => false end.


(** ** predict_phase_shift.py

    The table of phase shifts and of the shots needed to detect them.  All
    the numbers are Python floats.  The overflow of [**] is outside the
    model, and the [.3e] rendering of three columns is a parameter. *)

Module PredictPhaseShift.






Section Table.

(** [f"{x:.3e}"] *)
Variable fmt_3e : npfloat -> string.




End Table.

End PredictPhaseShift.

(** ** helical_relativity.py

    The two dilation factors compared by [verify_helical_dilation], with the
    speed [C], the top of the velocity grid as a fraction of [C] and the
    size of the grid as arguments; the script has [1.0], [0.995] and
    [1000]. *)

Module HelicalRelativity.






End HelicalRelativity.

(** ** Closed forms and sample root finders

    What each loop appends for one index, written without the loop, and a
    few concrete root finders on which the statements below are run. *)

(** The ratio appended by the sweep of [mass_spectrum.py] for [n]. *)
Definition np_proxy (fsolve : (npfloat -> npfloat) -> npfloat -> npfloat)
    (n : Z) : npfloat :=
  proxy_of (np_int64 n)
    (fsolve (MassSpectrum.func (np_int64 n))
       (fdiv (Real 1) (Real (pi_times (np_int64 n))))).

(** The root appended by the first loop of [quantized_spectrum.py]. *)
Definition root_at (fsolve : (npfloat -> npfloat) -> npfloat -> npfloat)
    (N : Z) : npfloat :=
  fsolve (fun m => QuantizedSpectrum.equation m (np_int64 N))
    (fdiv (Real 1) (Real (pi_times (np_int64 N)))).


(** A root finder that gives up at [2], outside the domain. *)
Definition stuck_at_two : (npfloat -> npfloat) -> npfloat -> npfloat :=
  fun _ _ => Real 2.


(** A root finder that answers [1/2] everywhere. *)
Definition always_half : (npfloat -> npfloat) -> npfloat -> npfloat :=
  fun _ _ => Real (1 / 2).




(** ** The residual as a function of an angle

    With [phi = arccos(-m)] in [[0, pi]], that is [m = - cos phi], the
    residual [sqrt(1 - m^2) - m (k - arccos(-m))] reads
    [sin phi + (k - phi) cos phi], where [k] stands for [pi N]. *)

Definition residual (k x : R) : R :=
  sqrt (1 - x * x) - x * (k - acos (- x)).

Definition phase (k phi : R) : R := sin phi + (k - phi) * cos phi.

(** An exact drift root of index [N]: a real number of [[-1, 1]] at which
    the residual is zero. *)
Definition is_root (N : index) (m : npfloat) : Prop :=
  exists x : R, m = Real x /\ -1 <= x <= 1 /\ stability N m = Real 0.

(** The root finder reaches an exact root from the seed of index [N]. *)
Definition converges_exactly
    (fsolve : (npfloat -> npfloat) -> npfloat -> npfloat) (N : index)
    : Prop :=
  is_root N (fsolve (stability N) (Real (1 / pi_times N))).

(** The same for the guarded residual of [find_the_neutrino.py]. *)
Definition converges_exactly_guarded
    (fsolve : (npfloat -> npfloat) -> npfloat -> npfloat) (N : index)
    : Prop :=
  is_root N (fsolve (FindTheNeutrino.equation N) (Real (1 / pi_times N))).

(** For [k >= pi] the phase changes sign between [pi/2] and [pi]; the
    intermediate value theorem gives a zero. *)
Definition drift_angle (k : R) (Hk : PI <= k) :
  {phi : R | PI / 2 <= phi <= PI /\ phase k phi = 0}.
Proof.
  apply IVT_cor.
  - unfold phase. reg.
  - pose proof PI_RGT_0. lra.
  - unfold phase. rewrite sin_PI2, cos_PI2, sin_PI, cos_PI. nra.
Defined.

(** An exact root finder for the seeds the scripts use: from the seed
    [1 / k] it recovers [k] and returns [- cos phi] for the angle above. *)
Definition exact_fsolve : (npfloat -> npfloat) -> npfloat -> npfloat :=
  fun _ x0 =>
    match x0 with
    | Real s =>
        match Rle_dec PI (1 / s) with
        | left Hk => Real (- cos (proj1_sig (drift_angle (1 / s) Hk)))
        | right _ => NaN
        end
    | _ => NaN
    end.

(** * Properties *)

(** ** Arithmetic of [npfloat] on finite values *)

Lemma Rltb_true (x y : R) : Rltb x y = true <-> x < y.
Proof. unfold Rltb. destruct (Rlt_dec x y); split; intros; try easy. Qed.

Lemma Rltb_false (x y : R) : Rltb x y = false <-> y <= x.
Proof.
  unfold Rltb. destruct (Rlt_dec x y); split; intros; try easy; lra.
Qed.

Lemma Rleb_true (x y : R) : Rleb x y = true <-> x <= y.
Proof. unfold Rleb. destruct (Rle_dec x y); split; intros; try easy. Qed.

Lemma Rleb_false (x y : R) : Rleb x y = false <-> y < x.
Proof.
  unfold Rleb. destruct (Rle_dec x y); split; intros; try easy; lra.
Qed.

Lemma fsqrt_real (x : R) : 0 <= x -> fsqrt (Real x) = Real (sqrt x).
Proof. intros H. simpl. apply Rleb_true in H. now rewrite H. Qed.

Lemma fsqrt_negative (x : R) : x < 0 -> fsqrt (Real x) = NaN.
Proof. intros H. simpl. apply Rleb_false in H. now rewrite H. Qed.

Lemma farccos_real (x : R) :
  -1 <= x <= 1 -> farccos (Real x) = Real (acos x).
Proof.
  intros [H1 H2]. simpl.
  apply Rleb_true in H1, H2. now rewrite H1, H2.
Qed.

Lemma fdiv_real (x y : R) : y <> 0 -> fdiv (Real x) (Real y) = Real (x / y).
Proof.
  intros H. simpl.
  destruct (Rltb y 0) eqn:E1; [reflexivity|].
  destruct (Rltb 0 y) eqn:E2; [reflexivity|].
  apply Rltb_false in E1, E2. lra.
Qed.

Lemma fgt_abs_one (x : R) : fgt (fabs (Real x)) (Real 1) = true <-> 1 < Rabs x.
Proof. unfold fgt. simpl. apply Rltb_true. Qed.

Lemma abs_le_one (x : R) : Rabs x <= 1 <-> -1 <= x <= 1.
Proof.
  unfold Rabs. destruct (Rcase_abs x); lra.
Qed.

Lemma one_minus_square_nonneg (x : R) : -1 <= x <= 1 -> 0 <= 1 - x * x.
Proof. intros. nra. Qed.

Lemma one_minus_square_negative (x : R) : 1 < Rabs x -> 1 - x * x < 0.
Proof. unfold Rabs. destruct (Rcase_abs x); intros; nra. Qed.

(** The residual inside the domain is a real number... *)
Lemma stability_real (N : index) (x : R) :
  -1 <= x <= 1 ->
  stability N (Real x)
  = Real (sqrt (1 - x * x) - x * (pi_times N - acos (- x))).
Proof.
  intros H. unfold stability, fpow2, fsub.
  cbn [fmul fneg fadd].
  replace (1 + - (x * x)) with (1 - x * x) by lra.
  rewrite fsqrt_real by now apply one_minus_square_nonneg.
  rewrite farccos_real by lra.
  cbn [fmul fneg fadd]. f_equal; lra.
Qed.

(** ... and NaN outside of it. *)
Lemma stability_outside (N : index) (x : R) :
  1 < Rabs x -> stability N (Real x) = NaN.
Proof.
  intros H. unfold stability, fpow2, fsub.
  cbn [fmul fneg fadd].
  replace (1 + - (x * x)) with (1 - x * x) by lra.
  rewrite fsqrt_negative by now apply one_minus_square_negative.
  reflexivity.
Qed.

Lemma guess_nonzero (N : index) :
  index_val N <> 0%Z -> guess N = Ok (Real (1 / pi_times N)).
Proof.
  intros H.
  assert (Hp : pi_times N <> 0).
  { unfold pi_times. apply Rmult_integral_contrapositive. split.
    - apply PI_neq0.
    - now apply not_0_IZR. }
  destruct N as [n|n]; simpl in *.
  - apply Z.eqb_neq in H. now rewrite H.
  - f_equal. apply (fdiv_real 1 (pi_times (np_int64 n))). exact Hp.
Qed.

(** ** The guarded residual of the neutrino search *)

(** C10.  The residual of [find_the_neutrino.py] is total on the reals: at
    every real [m] it returns a real number, and whenever the guard lets [m]
    through to the square root, the argument [1 - m^2] is not negative. *)
Theorem neutrino_equation_total (N : index) (x : R) :
  (exists y : R, FindTheNeutrino.equation N (Real x) = Real y) /\
  (fgt (fabs (Real x)) (Real 1) = false -> 0 <= 1 - x * x).
Proof.
  unfold FindTheNeutrino.equation.
  destruct (fgt (fabs (Real x)) (Real 1)) eqn:G.
  - split; [now exists 100 | discriminate].
  - assert (Hx : -1 <= x <= 1).
    { apply abs_le_one. unfold fgt in G. simpl in G.
      now apply Rltb_false in G. }
    split.
    + rewrite stability_real by exact Hx. eexists. reflexivity.
    + intros _. now apply one_minus_square_nonneg.
Qed.

Lemma neutrino_equation_penalty (N : index) (x : R) :
  1 < Rabs x -> FindTheNeutrino.equation N (Real x) = Real 100.
Proof.
  intros H. unfold FindTheNeutrino.equation.
  apply fgt_abs_one in H. now rewrite H.
Qed.

Lemma Rabs_two : 1 < Rabs 2.
Proof. rewrite Rabs_right; lra. Qed.

(** C2.  At the iterate [m = 2] the residuals of [mass_spectrum.py] and of
    [quantized_spectrum.py] evaluate the square root of [-3] and return NaN;
    only the residual of [find_the_neutrino.py] returns the penalty [100]. *)
Theorem unguarded_residual_is_nan :
  MassSpectrum.func (np_int64 2) (Real 2) = NaN /\
  QuantizedSpectrum.equation (Real 2) (np_int64 2) = NaN /\
  FindTheNeutrino.equation (py_int 2) (Real 2) = Real 100.
Proof.
  repeat split.
  - apply stability_outside, Rabs_two.
  - apply stability_outside, Rabs_two.
  - apply neutrino_equation_penalty, Rabs_two.
Qed.

(** ** What [solve] does with the solver's answer *)

Section SolveFacts.

Variable fsolve : (npfloat -> npfloat) -> npfloat -> npfloat.

Lemma solve_drift_nonzero (N : index) :
  index_val N <> 0%Z ->
  MassSpectrum.solve_drift fsolve N
  = Ok (fsolve (MassSpectrum.func N) (Real (1 / pi_times N))).
Proof.
  intros H. unfold MassSpectrum.solve_drift.
  now rewrite guess_nonzero.
Qed.

Lemma solve_for_mass_proxy_nonzero (N : index) :
  index_val N <> 0%Z ->
  FindTheNeutrino.solve_for_mass_proxy fsolve N
  = Ok (proxy_of N
          (fsolve (FindTheNeutrino.equation N) (Real (1 / pi_times N)))).
Proof.
  intros H. unfold FindTheNeutrino.solve_for_mass_proxy.
  now rewrite guess_nonzero.
Qed.


End SolveFacts.



(** ** [np.arange] *)

Lemma arange_length (start stop : Z) :
  List.length (arange start stop) = Z.to_nat (stop - start).
Proof. unfold arange. now rewrite length_map, length_seq. Qed.

Lemma arange_In (start stop N : Z) :
  In N (arange start stop) <-> (start <= N < stop)%Z.
Proof.
  unfold arange. rewrite in_map_iff. split.
  - intros [i [<- Hi]]. apply in_seq in Hi. lia.
  - intros H. exists (Z.to_nat (N - start)). split; [lia|].
    apply in_seq. lia.
Qed.

Lemma arange_nth_error (start stop : Z) (i : nat) :
  (i < Z.to_nat (stop - start))%nat ->
  nth_error (arange start stop) i = Some (start + Z.of_nat i)%Z.
Proof.
  intros H. unfold arange.
  rewrite nth_error_map, nth_error_seq.
  destruct (Nat.ltb_spec i (Z.to_nat (stop - start))); [reflexivity | lia].
Qed.

Lemma seq_shifted_sorted (start : Z) (len from : nat) :
  StronglySorted Z.lt
    (map (fun i => (start + Z.of_nat i)%Z) (seq from len)).
Proof.
  revert from. induction len as [|len IH]; intros from; simpl.
  - constructor.
  - constructor; [apply IH|].
    apply Forall_forall. intros z Hz.
    apply in_map_iff in Hz as [i [<- Hi]]. apply in_seq in Hi. lia.
Qed.

Lemma arange_sorted (start stop : Z) : StronglySorted Z.lt (arange start stop).
Proof. apply seq_shifted_sorted. Qed.




Lemma lookup_combine_map {A : Type} (f : Z -> A) (l : list Z) (N : Z) :
  lookup N (combine l (map f l)) = if in_dec Z.eq_dec N l then Some (f N) else None.
Proof.
  induction l as [|a l IH]; simpl; [reflexivity|].
  destruct (Z.eqb_spec a N) as [->|Hne].
  - destruct (Z.eq_dec N N); [reflexivity | easy].
  - rewrite IH. destruct (Z.eq_dec a N); [easy|].
    destruct (in_dec Z.eq_dec N l); reflexivity.
Qed.

(** ** The sweep of [mass_spectrum.py] *)

Section SweepFacts.

Variable fsolve : (npfloat -> npfloat) -> npfloat -> npfloat.

Lemma get_mass_proxy_np (n : Z) :
  MassSpectrum.get_mass_proxy fsolve (np_int64 n) = Ok (np_proxy fsolve n).
Proof. reflexivity. Qed.

Lemma get_mass_proxy_nonzero (N : index) :
  index_val N <> 0%Z ->
  MassSpectrum.get_mass_proxy fsolve N = Ok (np_proxy fsolve (index_val N)).
Proof.
  intros H. unfold MassSpectrum.get_mass_proxy.
  rewrite solve_drift_nonzero by exact H. simpl. unfold np_proxy.
  rewrite (fdiv_real 1 (pi_times (np_int64 (index_val N)))).
  - destruct N; reflexivity.
  - unfold pi_times. apply Rmult_integral_contrapositive. split.
    + apply PI_neq0.
    + now apply not_0_IZR.
Qed.

Lemma sweep_closed_form (e : npfloat) (ns : list Z) (acc : list npfloat) :
  MassSpectrum.sweep fsolve e ns acc
  = Ok (acc ++ map (fun n => fdiv (np_proxy fsolve n) e) ns).
Proof.
  revert acc. induction ns as [|n ns IH]; intros acc; simpl.
  - now rewrite app_nil_r.
  - rewrite IH, <- app_assoc. reflexivity.
Qed.

Lemma generate_closed_form (anchor : index) (start stop : Z) (out : stdout) :
  index_val anchor <> 0%Z ->
  MassSpectrum.generate fsolve anchor start stop out
  = (Ok (arange start stop,
         map (fun n => fdiv (np_proxy fsolve n)
                            (np_proxy fsolve (index_val anchor)))
             (arange start stop)),
     (out ++ ["Generating Mass Spectrum..."%string])%list).
Proof.
  intros H. unfold MassSpectrum.generate.
  rewrite get_mass_proxy_nonzero by exact H.
  now rewrite sweep_closed_form.
Qed.

End SweepFacts.

Section GenerateFacts.

Variable fsolve : (npfloat -> npfloat) -> npfloat -> npfloat.


Lemma proxy_of_real (N : index) (x : R) :
  -1 <= x <= 1 ->
  proxy_of N (Real x) = Real (IZR (index_val N) * sqrt (1 - x * x)).
Proof.
  intros H. unfold proxy_of, fpow2, fsub. cbn [fmul fneg fadd].
  replace (1 + - (x * x)) with (1 - x * x) by lra.
  rewrite fsqrt_real by now apply one_minus_square_nonneg.
  reflexivity.
Qed.

(** C6.  When the sweep bounds are valid and the anchor's root is a real
    number of [(-1, 1)], the entry of the curve at the anchor index has
    ratio exactly [1]. *)
Theorem anchor_ratio_is_one (anchor : index) (N_min N_max : Z) (out : stdout)
    (x : R) :
  (1 <= N_min <= index_val anchor)%Z ->
  (index_val anchor <= N_max)%Z ->
  MassSpectrum.solve_drift fsolve anchor = Ok (Real x) ->
  -1 < x < 1 ->
  exists arrays out',
    MassSpectrum.generate fsolve anchor N_min (N_max + 1) out
    = (Ok arrays, out') /\
    lookup (index_val anchor) (MassSpectrum.curve_of arrays) = Some (Real 1).
Proof.
  intros H1 H2 Hroot Hx. eexists. eexists. split.
  - apply generate_closed_form. lia.
  - unfold MassSpectrum.curve_of. cbn [fst snd].
    rewrite lookup_combine_map.
    destruct (in_dec Z.eq_dec (index_val anchor) (arange N_min (N_max + 1)))
      as [_|Hout].
    2:{ exfalso. apply Hout. apply arange_In. lia. }
    f_equal.
    assert (Hp : np_proxy fsolve (index_val anchor)
                 = Real (IZR (index_val anchor) * sqrt (1 - x * x))).
    { assert (Hg := get_mass_proxy_nonzero fsolve anchor ltac:(lia)).
      unfold MassSpectrum.get_mass_proxy in Hg. rewrite Hroot in Hg.
      simpl in Hg. injection Hg as <-. apply proxy_of_real. lra. }
    assert (Hnz : IZR (index_val anchor) * sqrt (1 - x * x) <> 0).
    { apply Rmult_integral_contrapositive. split.
      - apply not_0_IZR. lia.
      - assert (0 < sqrt (1 - x * x)) by (apply sqrt_lt_R0; nra). lra. }
    rewrite Hp, fdiv_real by exact Hnz.
    f_equal. now apply Rdiv_diag.
Qed.



End GenerateFacts.


Lemma half_in_domain : -1 < 1 / 2 < 1.
Proof. lra. Qed.

Lemma anchor_ratio_is_one_witness :
  exists arrays out',
    MassSpectrum.generate always_half MassSpectrum.N_e 2 (11999 + 1) []
    = (Ok arrays, out') /\
    lookup 3 (MassSpectrum.curve_of arrays) = Some (Real 1).
Proof.
  apply (anchor_ratio_is_one always_half MassSpectrum.N_e 2 11999 [] (1 / 2)).
  - simpl; lia.
  - simpl; lia.
  - apply solve_drift_nonzero. simpl; lia.
  - exact half_in_domain.
Defined.



(** A sweep over the single index [5], anchored at [5]: one entry, of ratio
    [1]. *)
Example single_entry_sweep :
  MassSpectrum.generate always_half (py_int 5) 5 (5 + 1) []
  = (Ok ([5%Z], [Real 1]), ["Generating Mass Spectrum..."%string]).
Proof.
  rewrite generate_closed_form by (simpl; lia).
  change (arange 5 (5 + 1)) with [5%Z]. cbn [map app index_val].
  assert (Hp : np_proxy always_half 5
               = Real (5 * sqrt (1 - 1 / 2 * (1 / 2)))).
  { unfold np_proxy, always_half. rewrite proxy_of_real by lra. reflexivity. }
  rewrite Hp, fdiv_real.
  - do 5 f_equal. apply Rdiv_diag.
    assert (0 < sqrt (1 - 1 / 2 * (1 / 2))) by (apply sqrt_lt_R0; lra). lra.
  - assert (0 < sqrt (1 - 1 / 2 * (1 / 2))) by (apply sqrt_lt_R0; lra). lra.
Qed.

(** ** The nearest match *)

Lemma argmin_from_reals (rs : list R) :
  forall (best_i : nat) (b : R) (i : nat),
    let k := argmin_from best_i (Real b) i (map Real rs) in
    (k = best_i /\ Forall (fun w => b <= w) rs) \/
    (exists j v,
        k = (i + j)%nat /\ nth_error rs j = Some v /\ v < b /\
        Forall (fun w => v <= w) rs /\
        forall j' w, (j' < j)%nat -> nth_error rs j' = Some w -> v < w).
Proof.
  induction rs as [|r rs IH]; intros best_i b i; cbn zeta.
  - left. split; [reflexivity | constructor].
  - cbn [map argmin_from is_nan flt orb].
    destruct (Rltb r b) eqn:E.
    + apply Rltb_true in E. right.
      destruct (IH i r (S i))
        as [[Hk Hall] | (j & v & Hk & Hj & Hv & Hall & Hfirst)].
      * exists 0%nat, r. rewrite Hk, Nat.add_0_r.
        split; [reflexivity|]. split; [reflexivity|]. split; [exact E|].
        split.
        -- constructor; [lra | exact Hall].
        -- intros j' w Hj'. lia.
      * exists (S j), v. rewrite Hk.
        split; [lia|]. split; [exact Hj|]. split; [lra|].
        split.
        -- constructor; [lra | exact Hall].
        -- intros [|j'] w Hj' Hw; simpl in Hw.
           ++ injection Hw as <-. exact Hv.
           ++ apply (Hfirst j'); [lia | exact Hw].
    + apply Rltb_false in E.
      destruct (IH best_i b (S i))
        as [[Hk Hall] | (j & v & Hk & Hj & Hv & Hall & Hfirst)].
      * left. split; [exact Hk|]. constructor; [exact E | exact Hall].
      * right. exists (S j), v. rewrite Hk.
        split; [lia|]. split; [exact Hj|]. split; [exact Hv|].
        split.
        -- constructor; [lra | exact Hall].
        -- intros [|j'] w Hj' Hw; simpl in Hw.
           ++ injection Hw as <-. lra.
           ++ apply (Hfirst j'); [lia | exact Hw].
Qed.

(** A NaN entry is what [np.argmin] returns, whatever follows it. *)
Example argmin_takes_nan : argmin [Real 1; NaN; Real 0] = Ok 1%nat.
Proof. reflexivity. Qed.

(** On real entries [np.argmin] returns the first position of the least
    entry. *)
Lemma argmin_reals (rs : list R) :
  rs <> [] ->
  exists k v,
    argmin (map Real rs) = Ok k /\ nth_error rs k = Some v /\
    Forall (fun w => v <= w) rs /\
    forall j w, (j < k)%nat -> nth_error rs j = Some w -> v < w.
Proof.
  destruct rs as [|r rs]; [easy|]. intros _.
  cbn [map argmin].
  destruct (argmin_from_reals rs 0 r 1)
    as [[Hk Hall] | (j & v & Hk & Hj & Hv & Hall & Hfirst)].
  - exists 0%nat, r. rewrite Hk.
    split; [reflexivity|]. split; [reflexivity|]. split.
    + constructor; [lra | exact Hall].
    + intros j w Hj. lia.
  - exists (S j), v. rewrite Hk.
    split; [reflexivity|]. split; [exact Hj|]. split.
    + constructor; [lra | exact Hall].
    + intros [|j'] w Hj' Hw; simpl in Hw.
      * injection Hw as <-. exact Hv.
      * apply (Hfirst j'); [lia | exact Hw].
Qed.

Lemma In_combine_nth_error {A B : Type} (l : list A) (l' : list B)
    (a : A) (b : B) :
  In (a, b) (combine l l') ->
  exists j, nth_error l j = Some a /\ nth_error l' j = Some b.
Proof.
  revert l'. induction l as [|x l IH]; intros [|y l'] H; simpl in H;
    try easy.
  destruct H as [H|H].
  - injection H as -> ->. now exists 0%nat.
  - destruct (IH l' H) as [j Hj]. now exists (S j).
Qed.

Lemma nth_error_In_combine {A B : Type} (l : list A) (l' : list B)
    (j : nat) (a : A) (b : B) :
  nth_error l j = Some a -> nth_error l' j = Some b ->
  In (a, b) (combine l l').
Proof.
  revert l l'. induction j as [|j IH]; intros [|x l] [|y l'] Ha Hb;
    simpl in *; try easy.
  - injection Ha as ->. injection Hb as ->. now left.
  - right. now apply IH.
Qed.

Lemma sorted_nth_error_le (l : list Z) :
  StronglySorted Z.lt l ->
  forall i j a b,
    (i <= j)%nat -> nth_error l i = Some a -> nth_error l j = Some b ->
    (a <= b)%Z.
Proof.
  induction 1 as [|x l Hs IH Hx]; intros i j a b Hij Ha Hb.
  - now destruct i.
  - destruct i as [|i], j as [|j]; simpl in *; try lia.
    + injection Ha as <-. injection Hb as <-. lia.
    + injection Ha as <-. apply nth_error_In in Hb.
      rewrite Forall_forall in Hx. specialize (Hx b Hb). lia.
    + apply (IH i j); [lia | exact Ha | exact Hb].
Qed.

Lemma distances_real (rs : list R) (t : R) :
  map (fun r => fabs (fsub r (Real t))) (map Real rs)
  = map Real (map (fun r => Rabs (r - t)) rs).
Proof.
  rewrite !map_map. apply map_ext. intros r. reflexivity.
Qed.

(** C3.  On a non-empty curve of real ratios stored by ascending index, the
    match for a real target is an entry of the curve whose distance to the
    target is least over the whole curve, and among the entries at that
    distance it is the one with the smallest index. *)
Theorem find_match_global_min (ns : list Z) (rs : list R) (t : R) :
  rs <> [] ->
  List.length ns = List.length rs ->
  StronglySorted Z.lt ns ->
  exists N r,
    MassSpectrum.find_match ns (map Real rs) (Real t) = Ok (N, Real r) /\
    In (N, r) (combine ns rs) /\
    forall N' r',
      In (N', r') (combine ns rs) ->
      Rabs (r - t) <= Rabs (r' - t) /\
      (Rabs (r' - t) = Rabs (r - t) -> (N <= N')%Z).
Proof.
  intros Hne Hlen Hsorted.
  set (ds := map (fun r => Rabs (r - t)) rs).
  assert (Hds : ds <> []) by (destruct rs; [easy | discriminate]).
  destruct (argmin_reals ds Hds) as (k & v & Hk & Hv & Hall & Hfirst).
  unfold ds in Hv. rewrite nth_error_map in Hv.
  destruct (nth_error rs k) as [r|] eqn:Hr; [|discriminate].
  injection Hv as Hv.
  assert (Hkn : (k < List.length ns)%nat).
  { rewrite Hlen. apply nth_error_Some. now rewrite Hr. }
  destruct (nth_error ns k) as [N|] eqn:HN.
  2:{ apply nth_error_None in HN. lia. }
  exists N, r. split; [|split].
  - unfold MassSpectrum.find_match. rewrite distances_real.
    fold ds. rewrite Hk. cbn [bind]. unfold getitem.
    rewrite HN. cbn [bind]. rewrite nth_error_map, Hr. reflexivity.
  - now apply (nth_error_In_combine ns rs k).
  - intros N' r' Hin.
    destruct (In_combine_nth_error _ _ _ _ Hin) as (j & HjN & Hjr).
    assert (Hdj : nth_error ds j = Some (Rabs (r' - t))).
    { unfold ds. now rewrite nth_error_map, Hjr. }
    split.
    + rewrite Forall_forall in Hall. rewrite Hv.
      apply Hall. now apply nth_error_In with j.
    + intros Heq.
      destruct (Nat.lt_ge_cases j k) as [Hlt|Hge].
      * specialize (Hfirst j _ Hlt Hdj). lra.
      * now apply (sorted_nth_error_le ns Hsorted k j).
Qed.

Lemma find_match_global_min_witness :
  exists N r,
    MassSpectrum.find_match [2; 3; 5]%Z (map Real [0.8; 1.0; 3.2])
      (Real 3.15) = Ok (N, Real r) /\
    In (N, r) (combine [2; 3; 5]%Z [0.8; 1.0; 3.2]) /\
    forall N' r',
      In (N', r') (combine [2; 3; 5]%Z [0.8; 1.0; 3.2]) ->
      Rabs (r - 3.15) <= Rabs (r' - 3.15) /\
      (Rabs (r' - 3.15) = Rabs (r - 3.15) -> (N <= N')%Z).
Proof.
  apply (find_match_global_min [2; 3; 5]%Z [0.8; 1.0; 3.2] 3.15).
  - discriminate.
  - reflexivity.
  - repeat constructor; lia.
Defined.

(** The scenario of the specification: ratios [0.8], [1.0], [3.2] at the
    indices [2], [3], [5]; the match for [3.15] is the entry at [5]. *)
Example find_match_scenario :
  MassSpectrum.find_match [2; 3; 5]%Z (map Real [0.8; 1.0; 3.2]) (Real 3.15)
  = Ok (5%Z, Real 3.2).
Proof.
  unfold MassSpectrum.find_match.
  cbn [map fsub fneg fadd fabs argmin argmin_from is_nan flt orb].
  assert (E1 : Rltb (Rabs (1.0 + - (3.15))) (Rabs (0.8 + - (3.15))) = true).
  { apply Rltb_true. rewrite !Rabs_left by lra. lra. }
  rewrite E1.
  assert (E2 : Rltb (Rabs (3.2 + - (3.15))) (Rabs (1.0 + - (3.15))) = true).
  { apply Rltb_true. rewrite Rabs_right, Rabs_left by lra. lra. }
  rewrite E2. reflexivity.
Qed.

(** ** The band spacings of [quantized_spectrum.py] *)

Section SpacingFacts.

Variable fsolve : (npfloat -> npfloat) -> npfloat -> npfloat.

Lemma solve_roots_closed_form (Ns : list Z) (acc : list npfloat) :
  QuantizedSpectrum.solve_roots fsolve Ns acc
  = Ok (acc ++ map (root_at fsolve) Ns).
Proof.
  revert acc. induction Ns as [|N Ns IH]; intros acc; simpl.
  - now rewrite app_nil_r.
  - rewrite IH, <- app_assoc. reflexivity.
Qed.

Lemma spacing_loop_closed_form (ms : list npfloat) (idxs : list nat) :
  Forall (fun i => (i + 1 < List.length ms)%nat) idxs ->
  forall acc,
    QuantizedSpectrum.spacing_loop ms idxs acc
    = Ok (acc ++ map (fun i => fsub (nth i ms NaN) (nth (i + 1) ms NaN)) idxs).
Proof.
  induction 1 as [|i idxs Hi Hrest IH]; intros acc; simpl.
  - now rewrite app_nil_r.
  - unfold getitem.
    rewrite (nth_error_nth' ms NaN) by lia.
    rewrite (nth_error_nth' ms NaN) by lia.
    cbn [bind]. rewrite IH, <- app_assoc. reflexivity.
Qed.

Lemma arange_nth (start stop : Z) (f : Z -> npfloat) (i : nat) :
  (i < Z.to_nat (stop - start))%nat ->
  nth i (map f (arange start stop)) NaN = f (start + Z.of_nat i)%Z.
Proof.
  intros H. apply nth_error_nth.
  now rewrite nth_error_map, arange_nth_error.
Qed.

Lemma removelast_arange (start stop : Z) :
  removelast (arange start stop) = arange start (stop - 1).
Proof.
  unfold arange.
  destruct (Z.to_nat (stop - start)) as [|len] eqn:E.
  - replace (Z.to_nat (stop - 1 - start)) with 0%nat by lia. reflexivity.
  - replace (Z.to_nat (stop - 1 - start)) with len by lia.
    rewrite seq_S, map_app. cbn [map]. apply removelast_last.
Qed.

Lemma drift_spectrum_closed_form (start stop : Z) :
  QuantizedSpectrum.drift_spectrum fsolve start stop
  = Ok (arange start stop,
        map (root_at fsolve) (arange start stop),
        map (fun N => fsub (root_at fsolve N) (root_at fsolve (N + 1)))
            (arange start (stop - 1))).
Proof.
  unfold QuantizedSpectrum.drift_spectrum. cbv zeta.
  rewrite solve_roots_closed_form. cbn [bind app].
  rewrite length_map, arange_length.
  unfold QuantizedSpectrum.py_range.
  rewrite spacing_loop_closed_form.
  - cbn [bind app]. do 2 f_equal.
    unfold arange at 3. rewrite map_map.
    replace (Z.to_nat (Z.of_nat (Z.to_nat (stop - start)) - 1))
      with (Z.to_nat (stop - 1 - start)) by lia.
    apply map_ext_in. intros i Hi. apply in_seq in Hi.
    rewrite !arange_nth by lia.
    do 2 f_equal. lia.
  - apply Forall_forall. intros i Hi. apply in_seq in Hi.
    rewrite length_map, arange_length. lia.
Qed.

Lemma lookup_arange (f : Z -> npfloat) (start stop N : Z) :
  lookup N (combine (arange start stop) (map f (arange start stop)))
  = if ((start <=? N) && (N <? stop))%Z then Some (f N) else None.
Proof.
  rewrite lookup_combine_map.
  destruct (in_dec Z.eq_dec N (arange start stop)) as [Hin|Hout];
    rewrite arange_In in *.
  - replace ((start <=? N) && (N <? stop))%Z with true by lia. reflexivity.
  - replace ((start <=? N) && (N <? stop))%Z with false by lia. reflexivity.
Qed.

(** C9.  The spacing stored at [N] is [m(N) - m(N+1)] when the root curve
    has an entry at [N] and one at [N+1]; no spacing is stored at any other
    index. *)
Theorem spacing_defined (start stop : Z) :
  exists N_values m_values spacings,
    QuantizedSpectrum.drift_spectrum fsolve start stop
    = Ok (N_values, m_values, spacings) /\
    forall N : Z,
      lookup N (QuantizedSpectrum.spacing_curve N_values spacings)
      = match lookup N (QuantizedSpectrum.root_curve N_values m_values),
              lookup (N + 1) (QuantizedSpectrum.root_curve N_values m_values)
        with
        | Some a, Some b => Some (fsub a b)
        | _, _ => None
        end.
Proof.
  do 3 eexists. split; [apply drift_spectrum_closed_form|].
  intros N. unfold QuantizedSpectrum.spacing_curve,
    QuantizedSpectrum.root_curve.
  rewrite removelast_arange, !lookup_arange.
  destruct (start <=? N)%Z eqn:E1, (N <? stop)%Z eqn:E2,
    (N <? stop - 1)%Z eqn:E3, (start <=? N + 1)%Z eqn:E4,
    (N + 1 <? stop)%Z eqn:E5; cbn [andb]; try reflexivity; lia.
Qed.

End SpacingFacts.

(** ** Order of the drift roots *)

Lemma phase_derivative (k c : R) :
  derivable_pt_lim (phase k) c (- ((k - c) * sin c)).
Proof.
  replace (- ((k - c) * sin c))
    with (cos c + ((0 - 1) * cos c + (k - c) * (- sin c))) by ring.
  unfold phase.
  apply (derivable_pt_lim_plus sin (fun phi => (k - phi) * cos phi)).
  - apply derivable_pt_lim_sin.
  - apply (derivable_pt_lim_mult (fun phi => k - phi) cos).
    + apply (derivable_pt_lim_minus (fun _ => k) (fun phi => phi)).
      * apply derivable_pt_lim_const.
      * apply derivable_pt_lim_id.
    + apply derivable_pt_lim_cos.
Qed.

(** The phase falls strictly on [[0, pi]] as soon as [k >= pi]. *)
Lemma phase_decreasing (k a b : R) :
  PI <= k -> 0 <= a -> a < b -> b <= PI -> phase k b < phase k a.
Proof.
  intros Hk Ha Hab Hb.
  destruct (MVT_cor2 (phase k) (fun c => - ((k - c) * sin c)) a b Hab
              (fun c _ => phase_derivative k c)) as (c & Hc & Hac).
  assert (0 < sin c) by (apply sin_gt_0; lra).
  assert (0 < (k - c) * sin c) by (apply Rmult_lt_0_compat; lra).
  nra.
Qed.

Lemma phase_shift (k k' phi : R) :
  phase k' phi = phase k phi + (k' - k) * cos phi.
Proof. unfold phase. ring. Qed.

(** A zero of the phase lies where the cosine is negative, that is at a
    positive drift. *)
Lemma phase_zero_cos_negative (k phi : R) :
  PI <= k -> 0 <= phi <= PI -> phase k phi = 0 -> cos phi < 0.
Proof.
  intros Hk Hphi H0. unfold phase in H0.
  destruct (Rlt_dec (cos phi) 0) as [|Hc]; [assumption|exfalso].
  apply Rnot_lt_le in Hc.
  assert (Hs : 0 <= sin phi) by (apply sin_ge_0; lra).
  assert (Hp : 0 <= (k - phi) * cos phi) by (apply Rmult_le_pos; lra).
  assert (Hs0 : sin phi = 0) by lra.
  assert (Hp0 : (k - phi) * cos phi = 0) by lra.
  pose proof (sin2_cos2 phi) as Hsc. rewrite Hs0 in Hsc. unfold Rsqr in Hsc.
  assert (Hc1 : cos phi = 1) by nra.
  rewrite Hc1 in Hp0.
  assert (phi = PI) by lra. subst phi. rewrite cos_PI in Hc1. lra.
Qed.

Lemma phase_zero_order (k1 k2 p1 p2 : R) :
  PI <= k1 -> k1 < k2 -> 0 <= p1 <= PI -> 0 <= p2 <= PI ->
  phase k1 p1 = 0 -> phase k2 p2 = 0 -> p2 < p1.
Proof.
  intros Hk1 Hk Hp1 Hp2 H1 H2.
  assert (Hc := phase_zero_cos_negative k1 p1 Hk1 Hp1 H1).
  assert (Hneg : phase k2 p1 < 0).
  { rewrite (phase_shift k1), H1. nra. }
  destruct (Rlt_dec p2 p1) as [|Hn]; [assumption|exfalso].
  apply Rnot_lt_le in Hn. destruct Hn as [Hlt|Heq].
  - assert (phase k2 p2 < phase k2 p1) by (apply phase_decreasing; lra). lra.
  - subst p2. lra.
Qed.

Lemma residual_phase (k x : R) :
  -1 <= x <= 1 -> residual k x = phase k (acos (- x)).
Proof.
  intros H. unfold residual, phase.
  rewrite sin_acos, cos_acos by lra.
  replace (1 - (- x)²) with (1 - x * x) by (unfold Rsqr; ring).
  ring.
Qed.

Lemma residual_zero_order (k1 k2 x1 x2 : R) :
  PI <= k1 -> k1 < k2 -> -1 <= x1 <= 1 -> -1 <= x2 <= 1 ->
  residual k1 x1 = 0 -> residual k2 x2 = 0 -> x2 < x1.
Proof.
  intros Hk1 Hk Hx1 Hx2 H1 H2.
  rewrite residual_phase in H1, H2 by assumption.
  pose proof (acos_bound (- x1)) as B1.
  pose proof (acos_bound (- x2)) as B2.
  assert (Hp := phase_zero_order k1 k2 _ _ Hk1 Hk B1 B2 H1 H2).
  assert (Hcos : cos (acos (- x1)) < cos (acos (- x2))).
  { apply cos_decreasing_1; lra. }
  rewrite !cos_acos in Hcos by lra. lra.
Qed.

Lemma stability_residual (N : index) (x : R) :
  -1 <= x <= 1 -> stability N (Real x) = Real (residual (pi_times N) x).
Proof. intros H. now rewrite stability_real. Qed.

Lemma pi_times_ge (N : index) : (1 <= index_val N)%Z -> PI <= pi_times N.
Proof.
  intros H. unfold pi_times. apply IZR_le in H.
  pose proof PI_RGT_0. nra.
Qed.

Lemma pi_times_lt (N1 N2 : index) :
  (index_val N1 < index_val N2)%Z -> pi_times N1 < pi_times N2.
Proof.
  intros H. unfold pi_times. apply IZR_lt in H.
  pose proof PI_RGT_0. nra.
Qed.

(** Exact roots of two indices [1 <= N1 < N2] come in the opposite order. *)
Lemma roots_ordered (N1 N2 : index) (m1 m2 : npfloat) :
  (1 <= index_val N1 < index_val N2)%Z ->
  is_root N1 m1 -> is_root N2 m2 -> flt m2 m1 = true.
Proof.
  intros HN (x1 & -> & Hx1 & H1) (x2 & -> & Hx2 & H2).
  rewrite stability_residual in H1, H2 by assumption.
  injection H1 as H1. injection H2 as H2.
  simpl. apply Rltb_true.
  apply (residual_zero_order (pi_times N1) (pi_times N2)); try assumption.
  - apply pi_times_ge. lia.
  - apply pi_times_lt. lia.
Qed.


Lemma sorted_map_in {B : Type} (rel : B -> B -> Prop) (f : Z -> B)
    (l : list Z) :
  StronglySorted Z.lt l ->
  (forall a b, In a l -> In b l -> (a < b)%Z -> rel (f a) (f b)) ->
  StronglySorted rel (map f l).
Proof.
  induction 1 as [|a l Hs IH Ha]; intros Hrel; simpl; constructor.
  - apply IH. intros x y Hx Hy. apply Hrel; now right.
  - apply Forall_forall. intros y Hy.
    apply in_map_iff in Hy as (b & <- & Hb).
    rewrite Forall_forall in Ha.
    apply Hrel; [now left | now right | now apply Ha].
Qed.

(** The same for the roots collected by [quantized_spectrum.py]: under
    exact convergence on the swept indices, [m_values] is strictly
    descending. *)
Lemma m_values_descending
    (fsolve : (npfloat -> npfloat) -> npfloat -> npfloat) (start stop : Z) :
  (1 <= start)%Z ->
  (forall N, (start <= N < stop)%Z -> converges_exactly fsolve (np_int64 N)) ->
  exists N_values m_values spacings,
    QuantizedSpectrum.drift_spectrum fsolve start stop
    = Ok (N_values, m_values, spacings) /\
    StronglySorted (fun a b => flt b a = true) m_values.
Proof.
  intros Hs Hex. do 3 eexists.
  split; [apply drift_spectrum_closed_form|].
  apply sorted_map_in; [apply arange_sorted|].
  intros a b Ha Hb Hab. apply arange_In in Ha, Hb.
  assert (Ra := Hex a Ha). assert (Rb := Hex b Hb).
  unfold converges_exactly in Ra, Rb.
  rewrite <- (fdiv_real 1 (pi_times (np_int64 a))) in Ra.
  2:{ pose proof (pi_times_ge (np_int64 a) ltac:(simpl; lia)).
      pose proof PI_RGT_0. lra. }
  rewrite <- (fdiv_real 1 (pi_times (np_int64 b))) in Rb.
  2:{ pose proof (pi_times_ge (np_int64 b) ltac:(simpl; lia)).
      pose proof PI_RGT_0. lra. }
  apply (roots_ordered (np_int64 a) (np_int64 b)); [simpl; lia | | ].
  - exact Ra.
  - exact Rb.
Qed.

(** [exact_fsolve] reaches an exact root at every index [N >= 1]. *)
Lemma exact_fsolve_converges (N : index) :
  (1 <= index_val N)%Z -> converges_exactly exact_fsolve N.
Proof.
  intros HN. unfold converges_exactly, exact_fsolve.
  pose proof (pi_times_ge N HN) as Hk. pose proof PI_RGT_0 as Hpi.
  assert (Hinv : 1 / (1 / pi_times N) = pi_times N) by (field; lra).
  destruct (Rle_dec PI (1 / (1 / pi_times N))) as [H|H]; [|lra].
  destruct (drift_angle (1 / (1 / pi_times N)) H) as (phi & Hphi & Hz).
  cbn [proj1_sig]. rewrite Hinv in Hz.
  assert (Hcos : -1 <= - cos phi <= 1) by (pose proof (COS_bound phi); lra).
  exists (- cos phi). split; [reflexivity|]. split; [exact Hcos|].
  rewrite stability_residual by exact Hcos. f_equal.
  rewrite residual_phase by exact Hcos.
  rewrite Ropp_involutive, acos_cos by lra. exact Hz.
Qed.


(** The sweep of the script, [np.arange(2, 12000)], holds the indices
    [2], ..., [11999]. *)
Example n_values_range (N : Z) :
  In N MassSpectrum.n_values <-> (2 <= N <= 11999)%Z.
Proof.
  unfold MassSpectrum.n_values. rewrite arange_In. lia.
Qed.

(** * Further properties of the scripts *)

(** ** Where the exact roots lie *)

Lemma phase_pi_zero (phi : R) :
  0 <= phi <= PI -> phase PI phi = 0 -> phi = PI.
Proof.
  intros Hphi H0.
  destruct (Rlt_dec phi PI) as [Hlt|Hge]; [exfalso | lra].
  assert (H := phase_decreasing PI phi PI ltac:(lra) ltac:(lra) Hlt ltac:(lra)).
  unfold phase in H at 1. rewrite sin_PI, cos_PI in H. lra.
Qed.

Lemma residual_root_positive (k x : R) :
  PI <= k -> -1 <= x <= 1 -> residual k x = 0 -> 0 < x.
Proof.
  intros Hk Hx H0. rewrite residual_phase in H0 by exact Hx.
  pose proof (acos_bound (- x)) as B.
  pose proof (phase_zero_cos_negative k _ Hk B H0) as Hc.
  rewrite cos_acos in Hc by lra. lra.
Qed.

Lemma residual_root_at_pi (x : R) :
  -1 <= x <= 1 -> residual PI x = 0 -> x = 1.
Proof.
  intros Hx H0. rewrite residual_phase in H0 by exact Hx.
  pose proof (acos_bound (- x)) as B.
  pose proof (phase_pi_zero _ B H0) as Hphi.
  pose proof (cos_acos (- x) ltac:(lra)) as Hc.
  rewrite Hphi, cos_PI in Hc. lra.
Qed.

Lemma PI_gt_1 : 1 < PI.
Proof. unfold PI. destruct pi2_int. lra. Qed.

Lemma le_one_over (x d : R) : 0 < d -> x * d <= 1 -> x <= 1 / d.
Proof.
  intros Hd H. apply Rmult_le_reg_r with d; [exact Hd|].
  unfold Rdiv. rewrite Rmult_assoc, Rinv_l by lra. lra.
Qed.

Lemma one_over_lt_one (d : R) : 1 < d -> 1 / d < 1.
Proof.
  intros Hd. apply Rmult_lt_reg_r with d; [lra|].
  unfold Rdiv. rewrite Rmult_assoc, Rinv_l by lra. lra.
Qed.

Lemma residual_root_upper (k x : R) :
  PI < k -> -1 <= x <= 1 -> residual k x = 0 -> x <= 1 / (k - PI).
Proof.
  intros Hk Hx H0.
  pose proof (residual_root_positive k x ltac:(lra) Hx H0) as Hpos.
  unfold residual in H0.
  pose proof (acos_bound (- x)) as B.
  assert (Hs : sqrt (1 - x * x) <= 1).
  { rewrite <- sqrt_1 at 2. apply sqrt_le_1_alt. nra. }
  assert (Hprod : x * (k - PI) <= 1) by nra.
  apply le_one_over; lra.
Qed.

Lemma is_root_real (N : index) (m : npfloat) :
  is_root N m ->
  exists x : R, m = Real x /\ -1 <= x <= 1 /\ residual (pi_times N) x = 0.
Proof.
  intros (x & -> & Hx & H0). exists x.
  rewrite stability_residual in H0 by exact Hx. injection H0 as H0.
  now repeat split.
Qed.

Section ExactRoots.

Variable fsolve : (npfloat -> npfloat) -> npfloat -> npfloat.

(** Exact convergence places the root of index 1 at 1, the edge of the
    domain, and every later root strictly inside [(0, 1)], at most
    [1 / (pi (N - 1))]. *)
Theorem exact_root_location (N : index) :
  (1 <= index_val N)%Z ->
  converges_exactly fsolve N ->
  exists x : R,
    MassSpectrum.solve_drift fsolve N = Ok (Real x) /\
    (index_val N = 1%Z -> x = 1) /\
    ((2 <= index_val N)%Z ->
     0 < x <= 1 / (PI * IZR (index_val N - 1)) /\ x < 1).
Proof.
  intros HN Hconv.
  destruct (is_root_real _ _ Hconv) as (x & E & Hx & H0).
  exists x. split.
  - rewrite solve_drift_nonzero by lia. unfold MassSpectrum.func.
    change (fun m => stability N m) with (stability N). now rewrite E.
  - split.
    + intros H1. apply residual_root_at_pi; [exact Hx|].
      unfold pi_times in H0. rewrite H1 in H0.
      now rewrite Rmult_1_r in H0.
    + intros H2.
      assert (Hk : PI < pi_times N).
      { unfold pi_times. apply IZR_le in H2. pose proof PI_RGT_0. nra. }
      pose proof (residual_root_positive _ _ (Rlt_le _ _ Hk) Hx H0) as Hpos.
      pose proof (residual_root_upper _ _ Hk Hx H0) as Hup.
      assert (Heq : pi_times N - PI = PI * IZR (index_val N - 1)).
      { unfold pi_times. rewrite minus_IZR. ring. }
      rewrite Heq in Hup.
      assert (Hden : PI <= PI * IZR (index_val N - 1)).
      { assert (1 <= IZR (index_val N - 1)) by (apply IZR_le; lia).
        pose proof PI_RGT_0. nra. }
      split; [split; [exact Hpos | exact Hup]|].
      apply Rle_lt_trans with (1 / (PI * IZR (index_val N - 1)));
        [exact Hup|].
      pose proof PI_gt_1.
      apply one_over_lt_one. lra.
Qed.

End ExactRoots.

Lemma exact_root_location_witness :
  exists x : R,
    MassSpectrum.solve_drift exact_fsolve (py_int 2) = Ok (Real x) /\
    (index_val (py_int 2) = 1%Z -> x = 1) /\
    ((2 <= index_val (py_int 2))%Z ->
     0 < x <= 1 / (PI * IZR (index_val (py_int 2) - 1)) /\ x < 1).
Proof.
  apply (exact_root_location exact_fsolve (py_int 2)).
  - simpl; lia.
  - apply exact_fsolve_converges. simpl; lia.
Defined.

(** ** The mass proxy and the ratio curve *)

Lemma proxy_of_outside (N : index) (m : npfloat) :
  (forall x, m = Real x -> 1 < Rabs x) -> proxy_of N m = NaN.
Proof.
  intros H. unfold proxy_of, fpow2, fsub.
  destruct m as [x| | |]; try reflexivity.
  cbn [fmul fneg fadd].
  replace (1 + - (x * x)) with (1 - x * x) by lra.
  rewrite fsqrt_negative; [reflexivity|].
  apply one_minus_square_negative. now apply H.
Qed.

Lemma sqrt_one_minus_square_le (x : R) :
  -1 <= x <= 1 -> 0 <= sqrt (1 - x * x) <= 1.
Proof.
  intros H. split; [apply sqrt_pos|].
  rewrite <- sqrt_1 at 2. apply sqrt_le_1_alt. nra.
Qed.

Lemma fdiv_nan_r (p : npfloat) : fdiv p NaN = NaN.
Proof. now destruct p. Qed.

Lemma fdiv_zero_not_finite (p : npfloat) (z : R) :
  z = 0 -> isfinite (fdiv p (Real z)) = false.
Proof.
  intros ->. unfold fdiv.
  assert (E : Rltb 0 0 = false) by (apply Rltb_false; lra).
  destruct p as [x| | |]; rewrite ?E; cbn [orb]; try reflexivity.
  unfold signed_inf. destruct (Rltb 0 x), (Rltb x 0); reflexivity.
Qed.

Lemma converges_exactly_np
    (fsolve : (npfloat -> npfloat) -> npfloat -> npfloat) (N : index) :
  converges_exactly fsolve N ->
  converges_exactly fsolve (np_int64 (index_val N)).
Proof. destruct N; intros H; exact H. Qed.

(** Under exact convergence the proxy of [n >= 1] is [n sqrt(1 - x^2)] at
    the root [x] of index [n]. *)
Lemma np_proxy_exact
    (fsolve : (npfloat -> npfloat) -> npfloat -> npfloat) (n : Z) :
  (1 <= n)%Z ->
  converges_exactly fsolve (np_int64 n) ->
  exists x : R,
    np_proxy fsolve n = Real (IZR n * sqrt (1 - x * x)) /\
    -1 <= x <= 1 /\ residual (PI * IZR n) x = 0.
Proof.
  intros Hn Hconv.
  destruct (is_root_real _ _ Hconv) as (x & E & Hx & H0).
  exists x. split; [|split; assumption].
  unfold np_proxy.
  rewrite (fdiv_real 1 (pi_times (np_int64 n))).
  - unfold MassSpectrum.func.
    change (fun m => stability (np_int64 n) m) with (stability (np_int64 n)).
    rewrite E. now apply proxy_of_real.
  - pose proof (pi_times_ge (np_int64 n) Hn). pose proof PI_RGT_0. lra.
Qed.

(** Exact roots give proxies that grow strictly with the index. *)
Lemma proxy_increasing (n1 n2 : Z) (x1 x2 : R) :
  (1 <= n1 < n2)%Z ->
  -1 <= x1 <= 1 -> -1 <= x2 <= 1 ->
  residual (PI * IZR n1) x1 = 0 -> residual (PI * IZR n2) x2 = 0 ->
  IZR n1 * sqrt (1 - x1 * x1) < IZR n2 * sqrt (1 - x2 * x2).
Proof.
  intros Hn Hx1 Hx2 H1 H2.
  pose proof PI_RGT_0 as Hpi.
  assert (Hn1 : 1 <= IZR n1) by (apply IZR_le; lia).
  assert (Hn12 : IZR n1 < IZR n2) by (apply IZR_lt; lia).
  assert (Hk1 : PI <= PI * IZR n1) by nra.
  assert (Hk12 : PI * IZR n1 < PI * IZR n2) by nra.
  pose proof (residual_zero_order _ _ _ _ Hk1 Hk12 Hx1 Hx2 H1 H2) as Hord.
  assert (Hk2 : PI <= PI * IZR n2) by lra.
  pose proof (residual_root_positive _ _ Hk2 Hx2 H2) as Hpos.
  assert (Hs : sqrt (1 - x1 * x1) < sqrt (1 - x2 * x2)).
  { apply sqrt_lt_1_alt. nra. }
  pose proof (sqrt_pos (1 - x1 * x1)). nra.
Qed.

Section ProxyFacts.

Variable fsolve : (npfloat -> npfloat) -> npfloat -> npfloat.

(** For [N >= 1] the mass proxy is a real number of [[0, N]] when the root
    finder answers inside [[-1, 1]], and NaN (no exception) when it answers
    beyond or with a value that is not a real number. *)
Theorem mass_proxy_range (N : index) (m : npfloat) :
  (1 <= index_val N)%Z ->
  MassSpectrum.solve_drift fsolve N = Ok m ->
  exists p,
    MassSpectrum.get_mass_proxy fsolve N = Ok p /\
    ((exists x, m = Real x /\ -1 <= x <= 1) ->
     exists y, p = Real y /\ 0 <= y <= IZR (index_val N)) /\
    ((forall x, m = Real x -> 1 < Rabs x) -> p = NaN).
Proof.
  intros HN Hm. exists (proxy_of N m). split; [|split].
  - unfold MassSpectrum.get_mass_proxy. now rewrite Hm.
  - intros (x & -> & Hx). rewrite proxy_of_real by exact Hx.
    eexists. split; [reflexivity|].
    pose proof (sqrt_one_minus_square_le x Hx).
    assert (1 <= IZR (index_val N)) by (apply IZR_le; lia). nra.
  - apply proxy_of_outside.
Qed.

(** When the anchor's root is not a real number strictly inside [(-1, 1)],
    the sweep still returns, and no ratio of its curve is a finite
    number. *)
Theorem bad_anchor_spoils_curve (anchor : index) (start stop : Z)
    (out : stdout) (m : npfloat) :
  index_val anchor <> 0%Z ->
  MassSpectrum.solve_drift fsolve anchor = Ok m ->
  (forall x, m = Real x -> ~ -1 < x < 1) ->
  exists mass_ratios out',
    MassSpectrum.generate fsolve anchor start stop out
    = (Ok (arange start stop, mass_ratios), out') /\
    Forall (fun r => isfinite r = false) mass_ratios.
Proof.
  intros Ha Hm Hbad. eexists. eexists. split.
  - apply generate_closed_form. exact Ha.
  - assert (He : np_proxy fsolve (index_val anchor) = proxy_of anchor m).
    { assert (Hg := get_mass_proxy_nonzero fsolve anchor Ha).
      unfold MassSpectrum.get_mass_proxy in Hg. rewrite Hm in Hg.
      simpl in Hg. now injection Hg as <-. }
    rewrite He. apply Forall_forall. intros r Hr.
    apply in_map_iff in Hr as (n & <- & _).
    destruct m as [x| | |].
    + destruct (Rlt_dec 1 (Rabs x)) as [Hout|Hin].
      * rewrite proxy_of_outside; [now rewrite fdiv_nan_r|].
        intros x' E. now injection E as <-.
      * assert (Hx : -1 <= x <= 1) by (apply abs_le_one; lra).
        rewrite proxy_of_real by exact Hx.
        apply fdiv_zero_not_finite.
        assert (Hedge : x = 1 \/ x = -1).
        { destruct (Req_dec x 1) as [|H1]; [now left|].
          destruct (Req_dec x (-1)) as [|H2]; [now right|].
          exfalso. apply (Hbad x eq_refl). lra. }
        destruct Hedge as [-> | ->].
        -- replace (1 - 1 * 1) with 0 by ring. rewrite sqrt_0. ring.
        -- replace (1 - -1 * -1) with 0 by ring. rewrite sqrt_0. ring.
    + rewrite proxy_of_outside by discriminate.
      now rewrite fdiv_nan_r.
    + rewrite proxy_of_outside by discriminate.
      now rewrite fdiv_nan_r.
    + rewrite proxy_of_outside by discriminate.
      now rewrite fdiv_nan_r.
Qed.

(** Under exact convergence at the anchor [>= 2] and at every index of the
    sweep, the ratios are real numbers that grow strictly with the index. *)
Theorem exact_curve_increasing (anchor : index) (start stop : Z)
    (out : stdout) :
  (1 <= start)%Z ->
  (2 <= index_val anchor)%Z ->
  converges_exactly fsolve anchor ->
  (forall n, (start <= n < stop)%Z -> converges_exactly fsolve (np_int64 n)) ->
  exists mass_ratios out',
    MassSpectrum.generate fsolve anchor start stop out
    = (Ok (arange start stop, mass_ratios), out') /\
    Forall (fun r => isfinite r = true) mass_ratios /\
    StronglySorted (fun a b => flt a b = true) mass_ratios.
Proof.
  intros Hs Ha Hca Hcn. eexists. eexists. split.
  - apply generate_closed_form. lia.
  - destruct (np_proxy_exact fsolve (index_val anchor) ltac:(lia)
                (converges_exactly_np fsolve anchor Hca))
      as (xa & Ea & Hxa & H0a).
    assert (Hka : PI < PI * IZR (index_val anchor)).
    { assert (2 <= IZR (index_val anchor)) by (apply IZR_le; lia).
      pose proof PI_RGT_0. nra. }
    pose proof (residual_root_positive _ _ (Rlt_le _ _ Hka) Hxa H0a) as Hpa.
    pose proof (residual_root_upper _ _ Hka Hxa H0a) as Hua.
    assert (Hlt1 : xa < 1).
    { apply Rle_lt_trans with (1 / (PI * IZR (index_val anchor) - PI));
        [exact Hua|].
      apply one_over_lt_one.
      assert (2 <= IZR (index_val anchor)) by (apply IZR_le; lia).
      pose proof PI_gt_1. nra. }
    set (e := IZR (index_val anchor) * sqrt (1 - xa * xa)) in *.
    assert (He : 0 < e).
    { unfold e. apply Rmult_lt_0_compat.
      - apply IZR_lt. lia.
      - apply sqrt_lt_R0. nra. }
    rewrite Ea. split.
    + apply Forall_forall. intros r Hr.
      apply in_map_iff in Hr as (n & <- & Hn). apply arange_In in Hn.
      destruct (np_proxy_exact fsolve n ltac:(lia) (Hcn n Hn))
        as (x & E & _).
      rewrite E, fdiv_real by lra. reflexivity.
    + apply sorted_map_in; [apply arange_sorted|].
      intros a b Hina Hinb Hab. apply arange_In in Hina, Hinb.
      destruct (np_proxy_exact fsolve a ltac:(lia) (Hcn a Hina))
        as (x1 & E1 & Hx1 & H1).
      destruct (np_proxy_exact fsolve b ltac:(lia) (Hcn b Hinb))
        as (x2 & E2 & Hx2 & H2).
      rewrite E1, E2, !fdiv_real by lra.
      cbn [flt]. apply Rltb_true.
      pose proof (proxy_increasing a b x1 x2 ltac:(lia) Hx1 Hx2 H1 H2).
      unfold Rdiv. apply Rmult_lt_compat_r; [|assumption].
      now apply Rinv_0_lt_compat.
Qed.

End ProxyFacts.

Lemma mass_proxy_range_witness :
  exists p,
    MassSpectrum.get_mass_proxy always_half (py_int 3) = Ok p /\
    ((exists x, Real (1 / 2) = Real x /\ -1 <= x <= 1) ->
     exists y, p = Real y /\ 0 <= y <= IZR (index_val (py_int 3))) /\
    ((forall x, Real (1 / 2) = Real x -> 1 < Rabs x) -> p = NaN).
Proof.
  apply (mass_proxy_range always_half (py_int 3) (Real (1 / 2))).
  - simpl; lia.
  - apply solve_drift_nonzero. simpl; lia.
Defined.

Lemma two_not_inside (x : R) : Real 2 = Real x -> ~ -1 < x < 1.
Proof. intros E. injection E as <-. lra. Qed.

Lemma bad_anchor_spoils_curve_witness :
  exists mass_ratios out',
    MassSpectrum.generate stuck_at_two (py_int 3) 2 5 []
    = (Ok (arange 2 5, mass_ratios), out') /\
    Forall (fun r => isfinite r = false) mass_ratios.
Proof.
  apply (bad_anchor_spoils_curve stuck_at_two (py_int 3) 2 5 [] (Real 2)).
  - simpl; lia.
  - apply solve_drift_nonzero. simpl; lia.
  - exact two_not_inside.
Defined.

Lemma exact_curve_increasing_witness :
  exists mass_ratios out',
    MassSpectrum.generate exact_fsolve (py_int 3) 2 6 []
    = (Ok (arange 2 6, mass_ratios), out') /\
    Forall (fun r => isfinite r = true) mass_ratios /\
    StronglySorted (fun a b => flt a b = true) mass_ratios.
Proof.
  apply (exact_curve_increasing exact_fsolve (py_int 3) 2 6 []).
  - lia.
  - simpl; lia.
  - apply exact_fsolve_converges. simpl; lia.
  - intros n Hn. apply exact_fsolve_converges. simpl; lia.
Defined.

(** ** More on the nearest match *)

Lemma argmin_from_bound (xs : list npfloat) :
  forall (best_i : nat) (best : npfloat) (i : nat),
    (best_i < i)%nat ->
    (argmin_from best_i best i xs < i + List.length xs)%nat.
Proof.
  induction xs as [|x xs IH]; intros best_i best i Hi; simpl.
  - lia.
  - destruct (is_nan best); [lia|].
    destruct (is_nan x || flt x best).
    + specialize (IH i x (S i) ltac:(lia)). lia.
    + specialize (IH best_i best (S i) ltac:(lia)). lia.
Qed.

Lemma argmin_in_range (xs : list npfloat) :
  xs <> [] ->
  exists k, argmin xs = Ok k /\ (k < List.length xs)%nat.
Proof.
  destruct xs as [|x xs]; [easy|]. intros _.
  eexists. split; [reflexivity|].
  pose proof (argmin_from_bound xs 0 x 1 ltac:(lia)). simpl. lia.
Qed.

(** The match never fails on an index: on an empty curve [np.argmin]
    raises [ValueError], and on any other curve, whatever its entries
    (infinite and NaN ones too), the answer is one of its entries. *)
Theorem find_match_total (ns : list Z) (mass_ratios : list npfloat)
    (target : npfloat) :
  List.length ns = List.length mass_ratios ->
  (mass_ratios = [] ->
   MassSpectrum.find_match ns mass_ratios target = Raise ValueError) /\
  (mass_ratios <> [] ->
   exists N ratio,
     MassSpectrum.find_match ns mass_ratios target = Ok (N, ratio) /\
     In (N, ratio) (combine ns mass_ratios)).
Proof.
  intros Hlen. split.
  - intros ->. reflexivity.
  - intros Hne.
    set (ds := map (fun r => fabs (fsub r target)) mass_ratios).
    assert (Hds : ds <> []) by (destruct mass_ratios; [easy | discriminate]).
    destruct (argmin_in_range ds Hds) as (k & Hk & Hlt).
    unfold ds in Hlt. rewrite length_map in Hlt.
    destruct (nth_error ns k) as [N|] eqn:HN.
    2:{ apply nth_error_None in HN. lia. }
    destruct (nth_error mass_ratios k) as [r|] eqn:Hr.
    2:{ apply nth_error_None in Hr. lia. }
    exists N, r. split.
    + unfold MassSpectrum.find_match. fold ds. rewrite Hk. cbn [bind].
      unfold getitem. rewrite HN. cbn [bind]. now rewrite Hr.
    + now apply (nth_error_In_combine ns mass_ratios k).
Qed.

Lemma find_match_total_witness :
  ([Real 1; NaN] = [] ->
   MassSpectrum.find_match [2; 3]%Z [Real 1; NaN] PInf = Raise ValueError) /\
  ([Real 1; NaN] <> [] ->
   exists N ratio,
     MassSpectrum.find_match [2; 3]%Z [Real 1; NaN] PInf = Ok (N, ratio) /\
     In (N, ratio) (combine [2; 3]%Z [Real 1; NaN])).
Proof.
  apply (find_match_total [2; 3]%Z [Real 1; NaN] PInf). reflexivity.
Defined.

Lemma argmin_from_first_nan (pre post : list npfloat) :
  Forall (fun x => is_nan x = false) pre ->
  forall (best_i : nat) (best : npfloat) (i : nat),
    is_nan best = false ->
    argmin_from best_i best i (pre ++ NaN :: post)
    = (i + List.length pre)%nat.
Proof.
  induction 1 as [|x pre Hx Hpre IH]; intros best_i best i Hb.
  - cbn [app argmin_from]. rewrite Hb. cbn [is_nan orb].
    rewrite Nat.add_0_r. now destruct post.
  - cbn [app argmin_from]. rewrite Hb, Hx. cbn [orb List.length].
    destruct (flt x best); rewrite IH by assumption; lia.
Qed.

Lemma argmin_first_nan (pre post : list npfloat) :
  Forall (fun x => is_nan x = false) pre ->
  argmin (pre ++ NaN :: post) = Ok (List.length pre).
Proof.
  intros H. destruct pre as [|x pre]; cbn [app argmin].
  - now destruct post.
  - inversion H as [|? ? Hx Hpre]; subst.
    now rewrite argmin_from_first_nan.
Qed.

Lemma distance_not_nan (r : npfloat) (t : R) :
  is_nan r = false -> is_nan (fabs (fsub r (Real t))) = false.
Proof. now destruct r. Qed.

(** A NaN ratio wins the match: for a real target, the answer is the first
    entry of the curve whose ratio is NaN, however close the others are. *)
Theorem find_match_first_nan (ns_pre ns_post : list Z) (N : Z)
    (pre post : list npfloat) (t : R) :
  List.length ns_pre = List.length pre ->
  Forall (fun r => is_nan r = false) pre ->
  MassSpectrum.find_match (ns_pre ++ N :: ns_post) (pre ++ NaN :: post)
    (Real t)
  = Ok (N, NaN).
Proof.
  intros Hlen Hpre. unfold MassSpectrum.find_match.
  rewrite map_app. cbn [map fsub fneg fadd fabs].
  rewrite argmin_first_nan.
  - rewrite length_map. cbn [bind]. unfold getitem.
    rewrite <- Hlen at 1. rewrite nth_error_app2, Nat.sub_diag by lia.
    cbn [nth_error bind].
    rewrite nth_error_app2, Nat.sub_diag by lia. reflexivity.
  - apply Forall_forall. intros d Hd.
    apply in_map_iff in Hd as (r & <- & Hr).
    rewrite Forall_forall in Hpre. now apply distance_not_nan, Hpre.
Qed.

Lemma find_match_first_nan_witness :
  MassSpectrum.find_match ([2] ++ 3 :: [5])%Z ([Real 1] ++ NaN :: [Real 3.2])
    (Real 3.15)
  = Ok (3%Z, NaN).
Proof.
  apply (find_match_first_nan [2%Z] [5%Z] 3%Z [Real 1] [Real 3.2] 3.15).
  - reflexivity.
  - repeat constructor.
Defined.

Lemma find_match_least_distance (ns : list Z) (rs : list R) (t : R) :
  rs <> [] ->
  List.length ns = List.length rs ->
  exists N r,
    MassSpectrum.find_match ns (map Real rs) (Real t) = Ok (N, Real r) /\
    forall N' r',
      In (N', r') (combine ns rs) -> Rabs (r - t) <= Rabs (r' - t).
Proof.
  intros Hne Hlen.
  set (ds := map (fun r => Rabs (r - t)) rs).
  assert (Hds : ds <> []) by (destruct rs; [easy | discriminate]).
  destruct (argmin_reals ds Hds) as (k & v & Hk & Hv & Hall & _).
  unfold ds in Hv. rewrite nth_error_map in Hv.
  destruct (nth_error rs k) as [r|] eqn:Hr; [|discriminate].
  injection Hv as Hv.
  destruct (nth_error ns k) as [N|] eqn:HN.
  2:{ apply nth_error_None in HN.
      assert (k < List.length rs)%nat
        by (apply nth_error_Some; now rewrite Hr).
      lia. }
  exists N, r. split.
  - unfold MassSpectrum.find_match. rewrite distances_real.
    fold ds. rewrite Hk. cbn [bind]. unfold getitem.
    rewrite HN. cbn [bind]. rewrite nth_error_map, Hr. reflexivity.
  - intros N' r' Hin.
    destruct (In_combine_nth_error _ _ _ _ Hin) as (j & _ & Hjr).
    rewrite Forall_forall in Hall. rewrite Hv. apply Hall.
    apply nth_error_In with j. unfold ds. now rewrite nth_error_map, Hjr.
Qed.

Lemma fractional_error (r t : R) :
  t <> 0 -> Rabs (1 - r / t) = Rabs (r - t) / Rabs t.
Proof.
  intros Ht.
  replace (1 - r / t) with ((t - r) / t) by (field; exact Ht).
  unfold Rdiv. rewrite Rabs_mult, Rabs_inv.
  now rewrite (Rabs_minus_sym t r).
Qed.

Lemma error_percent_real (r t : R) :
  t <> 0 ->
  MassSpectrum.error_percent (Real r) (Real t)
  = Real (Rabs (r - t) / Rabs t * 100).
Proof.
  intros Ht. unfold MassSpectrum.error_percent.
  rewrite fdiv_real by exact Ht.
  cbn [fsub fneg fadd fabs fmul].
  f_equal. f_equal. now apply fractional_error.
Qed.

(** The error printed beside a prediction is the least one: for a real,
    non-zero target and a curve of real ratios, no entry of the curve has a
    smaller percentage error than the match. *)
Theorem match_least_error (ns : list Z) (rs : list R) (t : R) :
  rs <> [] ->
  List.length ns = List.length rs ->
  t <> 0 ->
  exists N r,
    MassSpectrum.find_match ns (map Real rs) (Real t) = Ok (N, Real r) /\
    forall N' r',
      In (N', r') (combine ns rs) ->
      fle (MassSpectrum.error_percent (Real r) (Real t))
          (MassSpectrum.error_percent (Real r') (Real t)) = true.
Proof.
  intros Hne Hlen Ht.
  destruct (find_match_least_distance ns rs t Hne Hlen) as (N & r & Hm & Hmin).
  exists N, r. split; [exact Hm|].
  intros N' r' Hin. specialize (Hmin N' r' Hin).
  rewrite !error_percent_real by exact Ht.
  cbn [fle]. apply Rleb_true.
  assert (Hpos : 0 < / Rabs t) by (apply Rinv_0_lt_compat, Rabs_pos_lt, Ht).
  unfold Rdiv. nra.
Qed.

Lemma target_nonzero : 3.15 <> 0.
Proof. lra. Qed.

Lemma match_least_error_witness :
  exists N r,
    MassSpectrum.find_match [2; 3; 5]%Z (map Real [0.8; 1.0; 3.2])
      (Real 3.15) = Ok (N, Real r) /\
    forall N' r',
      In (N', r') (combine [2; 3; 5]%Z [0.8; 1.0; 3.2]) ->
      fle (MassSpectrum.error_percent (Real r) (Real 3.15))
          (MassSpectrum.error_percent (Real r') (Real 3.15)) = true.
Proof.
  apply (match_least_error [2; 3; 5]%Z [0.8; 1.0; 3.2] 3.15).
  - discriminate.
  - reflexivity.
  - exact target_nonzero.
Defined.

(** ** The neutrino search *)

Lemma stability_nan (N : index) : stability N NaN = NaN.
Proof. reflexivity. Qed.

(** The guarded residual returns a real number at every input but NaN: the
    penalty [100] at the two infinities as beyond [1], and NaN at NaN, which
    the guard lets through. *)
Theorem neutrino_equation_real_iff (N : index) (m : npfloat) :
  (exists y : R, FindTheNeutrino.equation N m = Real y) <-> is_nan m = false.
Proof.
  destruct m as [x| | |].
  - split; [reflexivity|]. intros _.
    destruct (Rlt_dec 1 (Rabs x)) as [Hout|Hin].
    + exists 100. now apply neutrino_equation_penalty.
    + assert (Hx : -1 <= x <= 1) by (apply abs_le_one; lra).
      unfold FindTheNeutrino.equation.
      assert (G : fgt (fabs (Real x)) (Real 1) = false).
      { unfold fgt. simpl. apply Rltb_false. lra. }
      rewrite G, stability_real by exact Hx. eexists. reflexivity.
  - split; [reflexivity|]. intros _. now exists 100.
  - split; [reflexivity|]. intros _. now exists 100.
  - split; [|discriminate]. intros (y & Hy).
    unfold FindTheNeutrino.equation in Hy. simpl in Hy. discriminate.
Qed.

Section NeutrinoFacts.

Variable fsolve : (npfloat -> npfloat) -> npfloat -> npfloat.


Lemma neutrino_proxy_exact (N : index) :
  (1 <= index_val N)%Z ->
  converges_exactly_guarded fsolve N ->
  exists x : R,
    FindTheNeutrino.solve_for_mass_proxy fsolve N
    = Ok (Real (IZR (index_val N) * sqrt (1 - x * x))) /\
    -1 <= x <= 1 /\ residual (PI * IZR (index_val N)) x = 0.
Proof.
  intros HN Hconv.
  destruct (is_root_real _ _ Hconv) as (x & E & Hx & H0).
  exists x. split; [|split; assumption].
  rewrite solve_for_mass_proxy_nonzero by lia.
  rewrite E. now rewrite proxy_of_real.
Qed.

(** Under exact convergence the mass proxy of the neutrino search grows
    strictly with the index, from [0] at [N = 1]. *)
Theorem neutrino_proxy_increasing (N1 N2 : index) :
  (1 <= index_val N1 < index_val N2)%Z ->
  converges_exactly_guarded fsolve N1 ->
  converges_exactly_guarded fsolve N2 ->
  exists p1 p2 : R,
    FindTheNeutrino.solve_for_mass_proxy fsolve N1 = Ok (Real p1) /\
    FindTheNeutrino.solve_for_mass_proxy fsolve N2 = Ok (Real p2) /\
    0 <= p1 < p2 /\
    (index_val N1 = 1%Z -> p1 = 0).
Proof.
  intros HN H1 H2.
  destruct (neutrino_proxy_exact N1 ltac:(lia) H1) as (x1 & E1 & Hx1 & R1).
  destruct (neutrino_proxy_exact N2 ltac:(lia) H2) as (x2 & E2 & Hx2 & R2).
  eexists. eexists. split; [exact E1|]. split; [exact E2|].
  split; [split|].
  - apply Rmult_le_pos; [apply IZR_le; lia | apply sqrt_pos].
  - now apply proxy_increasing.
  - intros Hone. rewrite Hone in R1. rewrite Rmult_1_r in R1.
    rewrite (residual_root_at_pi x1 Hx1 R1).
    replace (1 - 1 * 1) with 0 by ring. rewrite sqrt_0. ring.
Qed.

(** The script under exact convergence at [1], [2] and [3]: the mass
    predicted for [N = 1] is exactly zero, and the one for [N = 2] lies
    strictly between zero and the electron mass. *)
Theorem script_predictions :
  converges_exactly_guarded fsolve (py_int 1) ->
  converges_exactly_guarded fsolve (py_int 2) ->
  converges_exactly_guarded fsolve (py_int 3) ->
  exists rep,
    FindTheNeutrino.script fsolve = Ok rep /\
    FindTheNeutrino.predicted_mass_1_mev rep = Real 0 /\
    exists y : R,
      FindTheNeutrino.predicted_mass_2_mev rep = Real y /\
      0 < y < FindTheNeutrino.MASS_ELECTRON_MEV.
Proof.
  intros H1 H2 H3.
  destruct (neutrino_proxy_exact (py_int 1) ltac:(simpl; lia) H1)
    as (x1 & E1 & Hx1 & R1).
  destruct (neutrino_proxy_exact (py_int 2) ltac:(simpl; lia) H2)
    as (x2 & E2 & Hx2 & R2).
  destruct (neutrino_proxy_exact (py_int 3) ltac:(simpl; lia) H3)
    as (x3 & E3 & Hx3 & R3).
  cbn [index_val] in *.
  pose proof (proxy_increasing 2 3 x2 x3 ltac:(lia) Hx2 Hx3 R2 R3) as H23.
  pose proof (proxy_increasing 1 2 x1 x2 ltac:(lia) Hx1 Hx2 R1 R2) as H12.
  assert (Hp1 : 1 * sqrt (1 - x1 * x1) = 0).
  { rewrite Rmult_1_r in R1. rewrite (residual_root_at_pi x1 Hx1 R1).
    replace (1 - 1 * 1) with 0 by ring. rewrite sqrt_0. ring. }
  set (p1 := 1 * sqrt (1 - x1 * x1)) in *.
  set (p2 := 2 * sqrt (1 - x2 * x2)) in *.
  set (p3 := 3 * sqrt (1 - x3 * x3)) in *.
  assert (Hp3 : p3 <> 0) by lra.
  eexists. split.
  - unfold FindTheNeutrino.script, FindTheNeutrino.N_ELECTRON.
    rewrite E3. cbn [bind]. rewrite E2. cbn [bind]. rewrite E1. cbn [bind].
    rewrite !fdiv_real by exact Hp3. reflexivity.
  - cbn [FindTheNeutrino.predicted_mass_1_mev
           FindTheNeutrino.predicted_mass_2_mev fmul].
    split.
    + f_equal. rewrite Hp1. unfold Rdiv. ring.
    + eexists. split; [reflexivity|].
      assert (HM : 0 < FindTheNeutrino.MASS_ELECTRON_MEV)
        by (unfold FindTheNeutrino.MASS_ELECTRON_MEV; lra).
      assert (Hinv : 0 < / p3) by (apply Rinv_0_lt_compat; lra).
      assert (Hr : 0 < p2 / p3 < 1).
      { unfold Rdiv. split; [nra|].
        apply Rmult_lt_reg_r with p3; [lra|].
        rewrite Rmult_assoc, Rinv_l by lra. lra. }
      nra.
Qed.

End NeutrinoFacts.

Lemma exact_fsolve_converges_guarded (N : index) :
  (1 <= index_val N)%Z -> converges_exactly_guarded exact_fsolve N.
Proof. intros H. exact (exact_fsolve_converges N H). Qed.

Lemma neutrino_proxy_increasing_witness :
  exists p1 p2 : R,
    FindTheNeutrino.solve_for_mass_proxy exact_fsolve (py_int 1)
    = Ok (Real p1) /\
    FindTheNeutrino.solve_for_mass_proxy exact_fsolve (py_int 2)
    = Ok (Real p2) /\
    0 <= p1 < p2 /\
    (index_val (py_int 1) = 1%Z -> p1 = 0).
Proof.
  apply (neutrino_proxy_increasing exact_fsolve (py_int 1) (py_int 2)).
  - simpl; lia.
  - apply exact_fsolve_converges_guarded. simpl; lia.
  - apply exact_fsolve_converges_guarded. simpl; lia.
Defined.

Lemma script_predictions_witness :
  exists rep,
    FindTheNeutrino.script exact_fsolve = Ok rep /\
    FindTheNeutrino.predicted_mass_1_mev rep = Real 0 /\
    exists y : R,
      FindTheNeutrino.predicted_mass_2_mev rep = Real y /\
      0 < y < FindTheNeutrino.MASS_ELECTRON_MEV.
Proof.
  apply (script_predictions exact_fsolve).
  - apply exact_fsolve_converges_guarded. simpl; lia.
  - apply exact_fsolve_converges_guarded. simpl; lia.
  - apply exact_fsolve_converges_guarded. simpl; lia.
Defined.

(** ** More on the band spacings *)

Section SpacingMore.

Variable fsolve : (npfloat -> npfloat) -> npfloat -> npfloat.

(** The two loops of the drift spectrum never index out of range, for any
    bounds; the roots are as many as the indices and the spacings as many
    as [N_values[:-1]], so that each plot receives arrays of equal
    length. *)
Theorem drift_spectrum_lengths (start stop : Z) :
  exists N_values m_values spacings,
    QuantizedSpectrum.drift_spectrum fsolve start stop
    = Ok (N_values, m_values, spacings) /\
    List.length N_values = Z.to_nat (stop - start) /\
    List.length m_values = List.length N_values /\
    List.length spacings = List.length (removelast N_values).
Proof.
  do 3 eexists. split; [apply drift_spectrum_closed_form|].
  rewrite removelast_arange, !length_map, !arange_length.
  repeat split.
Qed.

Lemma root_at_exact (N : Z) :
  (1 <= N)%Z ->
  converges_exactly fsolve (np_int64 N) ->
  exists x : R,
    root_at fsolve N = Real x /\
    -1 <= x <= 1 /\ residual (PI * IZR N) x = 0.
Proof.
  intros HN Hconv.
  destruct (is_root_real _ _ Hconv) as (x & E & Hx & H0).
  exists x. split; [|split; assumption].
  unfold root_at. rewrite (fdiv_real 1 (pi_times (np_int64 N))).
  - exact E.
  - pose proof (pi_times_ge (np_int64 N) HN). pose proof PI_RGT_0. lra.
Qed.

(** Under exact convergence on the swept indices every spacing is a
    positive real number, as the logarithmic axis of the second plot
    needs. *)
Theorem spacings_positive (start stop : Z) :
  (1 <= start)%Z ->
  (forall N, (start <= N < stop)%Z -> converges_exactly fsolve (np_int64 N)) ->
  exists N_values m_values spacings,
    QuantizedSpectrum.drift_spectrum fsolve start stop
    = Ok (N_values, m_values, spacings) /\
    Forall (fun s => exists y : R, s = Real y /\ 0 < y) spacings.
Proof.
  intros Hs Hex. do 3 eexists.
  split; [apply drift_spectrum_closed_form|].
  apply Forall_forall. intros s Hin.
  apply in_map_iff in Hin as (N & <- & HN). apply arange_In in HN.
  destruct (root_at_exact N ltac:(lia) (Hex N ltac:(lia)))
    as (x1 & E1 & Hx1 & R1).
  destruct (root_at_exact (N + 1) ltac:(lia) (Hex (N + 1)%Z ltac:(lia)))
    as (x2 & E2 & Hx2 & R2).
  rewrite E1, E2. cbn [fsub fneg fadd]. eexists. split; [reflexivity|].
  assert (H1 : 1 <= IZR N) by (apply IZR_le; lia).
  assert (H12 : IZR N < IZR (N + 1)) by (apply IZR_lt; lia).
  pose proof PI_RGT_0.
  assert (Hord : x2 < x1).
  { apply (residual_zero_order (PI * IZR N) (PI * IZR (N + 1)));
      try assumption; nra. }
  lra.
Qed.

End SpacingMore.

Lemma spacings_positive_witness :
  exists N_values m_values spacings,
    QuantizedSpectrum.drift_spectrum exact_fsolve 1 21
    = Ok (N_values, m_values, spacings) /\
    Forall (fun s => exists y : R, s = Real y /\ 0 < y) spacings.
Proof.
  apply (spacings_positive exact_fsolve 1 21).
  - lia.
  - intros N HN. apply exact_fsolve_converges. simpl; lia.
Defined.

(** ** The phase-shift table *)











Section TableFacts.

Variable fmt_3e : npfloat -> string.






End TableFacts.



(** ** The two dilation factors *)














